(** * ModalBase.vue: the modal view binding

    A shallow embedding of [frontend/components/modal/ModalBase.vue]: the
    script block (the captured name, the local flag, the mounted hook, the
    two watchers and [closeModal]) and the part of the template that decides
    which DOM events call [closeModal]. *)

From stdpp Require Import base option list gmap strings.

Open Scope string_scope.
Open Scope list_scope.

(** ** Data *)

(** One entry of [modals.modals]: the code reads its [isOpen] field only. *)
Record Modal := { isOpen : bool }.

(** [modals.modals], a JS object keyed by the modal's name. *)
Abbreviation Modals := (gmap string Modal).

(** [defineProps<{ imageModal?: boolean; modalName: string }>()]; an omitted
    boolean prop reads as [false]. *)
Record Props := { imageModal : bool; prop_modalName : string }.

(** The store actions a component can call on [useModals()]. *)
Inductive Action := OpenModal | CloseModal.

(** What the binding does to the outside: events emitted to the embedding
    caller (name and arguments) and actions called on the store. *)
Inductive Effect :=
| Emit (event : string) (args : list string)
| Called (a : Action) (name : string).

(** The component instance together with the store it is bound to.
    [watched] is the value the watcher of [modals.modals[modalName]?.isOpen]
    saw last: Vue calls a watcher's callback only when the watched value
    differs from it. [log] lists the effects, oldest first. *)
Record World := {
  props : Props;
  modals : Modals;
  modalName : string;
  modalIsOpen : bool;
  watched : option bool;
  log : list Effect
}.

Definition set_props (p : Props) (w : World) : World :=
  {| props := p; modals := modals w; modalName := modalName w;
     modalIsOpen := modalIsOpen w; watched := watched w; log := log w |}.

Definition set_modals (f : Modals → Modals) (w : World) : World :=
  {| props := props w; modals := f (modals w); modalName := modalName w;
     modalIsOpen := modalIsOpen w; watched := watched w; log := log w |}.

Definition set_modalIsOpen (v : bool) (w : World) : World :=
  {| props := props w; modals := modals w; modalName := modalName w;
     modalIsOpen := v; watched := watched w; log := log w |}.

Definition set_watched (v : option bool) (w : World) : World :=
  {| props := props w; modals := modals w; modalName := modalName w;
     modalIsOpen := modalIsOpen w; watched := v; log := log w |}.

Definition record (e : Effect) (w : World) : World :=
  {| props := props w; modals := modals w; modalName := modalName w;
     modalIsOpen := modalIsOpen w; watched := watched w; log := log w ++ [e] |}.

(** ** Handlers as state transformers *)

Definition M (A : Type) : Type := World → A * World.

#[export] Instance M_ret : MRet M := λ A a w, (a, w).
#[export] Instance M_bind : MBind M := λ A B f m w, f (m w).1 (m w).2.

Definition gets {A} (f : World → A) : M A := λ w, (f w, w).
Definition modify (f : World → World) : M unit := λ w, (tt, f w).
Definition exec {A} (m : M A) (w : World) : World := (m w).2.

Fixpoint times (n : nat) (m : M unit) : M unit :=
  match n with
  | O => mret tt
  | S k => m ;; times k m
  end.

(** ** The template *)

(** The elements of the template, named by what they are. *)
Inductive Node :=
| Backdrop          (* <DialogBackdrop>, line 4 *)
| Wrapper           (* the <div> of line 7 *)
| Panel             (* <DialogPanel>, line 17 *)
| ImageCloseButton  (* <button v-if="imageModal">, line 25 *)
| CardButtonBox     (* <div v-else class="relative">, line 36 *)
| CardCloseButton   (* its <button>, line 37 *)
| ImageSlotBox      (* <div v-if="imageModal">, line 44 *)
| CardSlotBox       (* <div v-else>, line 57 *)
| SlotContent.      (* whatever the caller puts in <slot /> *)

Inductive Key := Enter | Esc | OtherKey.

Inductive DomEvent := Click | Keydown (k : Key) | Keypress (k : Key).

#[export] Instance Node_eq_dec : EqDecision Node.
Proof. solve_decision. Defined.
#[export] Instance Key_eq_dec : EqDecision Key.
Proof. solve_decision. Defined.
#[export] Instance DomEvent_eq_dec : EqDecision DomEvent.
Proof. solve_decision. Defined.

(** When an element is rendered. *)
Inductive Cond := Always | IfImage | IfCard.

Definition holds (im : bool) (c : Cond) : bool :=
  match c with
  | Always => true
  | IfImage => im
  | IfCard => negb im
  end.

(** An element: its name, its [v-if]/[v-else] condition, the events whose
    handler is [closeModal()], the events whose propagation the element
    stops, and its children. *)
#[warnings="-register-all"]
Inductive Tpl :=
  El (id : Node) (c : Cond) (on stops : list DomEvent) (kids : list Tpl).

(** The children of [<Dialog>], as written. [<DialogPanel>] is the panel of
    @headlessui/vue, which stops the propagation of clicks: a click on the
    panel or inside it does not reach the wrapping [<div>]. Key events pass. *)
Definition template : list Tpl :=
  [ El Backdrop Always [] [] [];
    El Wrapper Always [Click; Keydown Enter] []
      [ El Panel Always [] [Click]
          [ El ImageCloseButton IfImage [Click] [] [];
            El CardButtonBox IfCard [] []
              [ El CardCloseButton Always [Click] [] [] ];
            El ImageSlotBox IfImage [Click; Keypress Esc] []
              [ El SlotContent Always [] [] [] ];
            El CardSlotBox IfCard [] []
              [ El SlotContent Always [] [] [] ] ] ] ].

(** The elements an event meets on its way from [target] up to the root,
    the target first, each with its handled and its stopped events. [None]
    when the variant's template has no [target]. *)
Fixpoint bubble (im : bool) (target : Node) (t : Tpl)
  : option (list (list DomEvent * list DomEvent)) :=
  match t with
  | El id c on stops kids =>
      if holds im c then
        if decide (id = target) then Some [(on, stops)]
        else
          (fix among (ks : list Tpl) : option (list (list DomEvent * list DomEvent)) :=
             match ks with
             | [] => None
             | k :: ks' =>
                 match bubble im target k with
                 | Some p => Some (p ++ [(on, stops)])
                 | None => among ks'
                 end
             end) kids
      else None
  end.

Fixpoint bubble_from (im : bool) (target : Node) (ts : list Tpl)
  : list (list DomEvent * list DomEvent) :=
  match ts with
  | [] => []
  | t :: ts' =>
      match bubble im target t with
      | Some p => p
      | None => bubble_from im target ts'
      end
  end.

(** The handlers an event runs along its way: each element's own, and
    those further up as long as no element stops the event. *)
Fixpoint fired (ev : DomEvent) (path : list (list DomEvent * list DomEvent)) : nat :=
  match path with
  | [] => 0
  | (on, stops) :: up =>
      (if bool_decide (ev ∈ on) then 1 else 0)
      + (if bool_decide (ev ∈ stops) then 0 else fired ev up)
  end.

(** How many [closeModal()] handlers one event at [target] runs. *)
Definition hits (im : bool) (target : Node) (ev : DomEvent) : nat :=
  fired ev (bubble_from im target template).

(** Whether the variant's template has [target] at all: an element under a
    [v-if]/[v-else] that does not hold is left out. (Whether the dialog is
    on screen is another matter: [<Dialog :open="modalIsOpen">] shows its
    content only while the flag is [true].) *)
Definition in_variant (im : bool) (target : Node) : bool :=
  match bubble_from im target template with
  | [] => false
  | _ :: _ => true
  end.

(** ** The modal store *)

(** What the binding needs of [useModals()] besides the [modals] object: its
    actions, each taking a name and changing [modals]. The store's code is
    not part of the component; the binding is modelled over any store. *)
Class ModalStore := store_action : Action → string → Modals → Modals.

(** *** The store as the spec describes it *)

Module Registry.

(** Modelled from the spec: the store behind [useModals()] is not among the
    sources. Section 4.1: open(name) "ensures an entry for name exists, sets
    isOpen = true". *)
Definition openModal (name : string) (ms : Modals) : Modals :=
  <[name := {| isOpen := true |}]> ms.

(** Modelled from the spec: the store behind [useModals()] is not among the
    sources. Section 4.1: close(name) "sets isOpen = false for the entry if it
    exists; no-op (not an error) if the entry never existed". *)
Definition closeModal (name : string) (ms : Modals) : Modals :=
  match ms !! name with
  | Some _ => <[name := {| isOpen := false |}]> ms
  | None => ms
  end.

(** Modelled from the spec: the store behind [useModals()] is not among the
    sources. Section 4.1: get(name) "returns the current entry (or absent)
    without side effects". *)
Definition get (name : string) (ms : Modals) : option Modal := ms !! name.

(** The two actions as a store the binding can be bound to. *)
Definition store : ModalStore :=
  λ a, match a with
       | OpenModal => openModal
       | CloseModal => closeModal
       end.

End Registry.

(** ** The script block *)

Section Binding.

Context {the_store : ModalStore}.

(** [const modalName = props.modalName; const modalIsOpen = ref(false);]
    and the first evaluation of the watcher's getter, on the store as it is
    when the component is set up. *)
Definition setup (p : Props) (ms : Modals) : World :=
  {| props := p; modals := ms; modalName := prop_modalName p;
     modalIsOpen := false;
     watched := isOpen <$> ms !! prop_modalName p;
     log := [] |}.

(** [modals.modals[modalName]?.isOpen]; [None] is [undefined]. *)
Definition registry_value (w : World) : option bool :=
  isOpen <$> modals w !! modalName w.

(** [() => modals.modals[modalName]?.isOpen] *)
Definition getter : M (option bool) := gets registry_value.

(** [(newVal) => { if (newVal !== undefined) modalIsOpen.value = newVal }] *)
Definition callback (newVal : option bool) : M unit :=
  match newVal with
  | Some v => modify (set_modalIsOpen v)
  | None => mret tt
  end.

(** The watcher's job: evaluate the getter again and call the callback when
    the value differs from the one seen last. [watch] is called without a
    [flush] option, so Vue does not run the job inside the write that
    queues it but later, when its scheduler flushes; writes in between are
    seen together. (A job run with nothing queued finds the value it saw
    last and does nothing.) *)
Definition watch_job : M unit :=
  newVal ← getter;
  oldVal ← gets watched;
  if decide (newVal = oldVal) then mret tt
  else callback newVal ;; modify (set_watched newVal).

(** A write to the reactive store. It queues the watcher's job and returns;
    the local flag is untouched until the job runs. *)
Definition store_write (f : Modals → Modals) : M unit :=
  modify (set_modals f).

(** A call [modals.<action>(name)]. *)
Definition modals_call (a : Action) (name : string) : M unit :=
  modify (record (Called a name)) ;; store_write (store_action a name).

(** [emit(event, ...args)] *)
Definition emit (event : string) (args : list string) : M unit :=
  modify (record (Emit event args)).

(** [onMounted(() => { if (modals.modals[modalName]) modalIsOpen.value =
    modals.modals[modalName].isOpen })] *)
Definition onMounted : M unit :=
  name ← gets modalName;
  ms ← gets modals;
  match ms !! name with
  | Some m => modify (set_modalIsOpen (isOpen m))
  | None => mret tt
  end.

(** [const closeModal = () => { emit("closeModal"); modals.closeModal(modalName) }] *)
Definition closeModal : M unit :=
  emit "closeModal" [] ;;
  name ← gets modalName;
  modals_call CloseModal name.

(** [watch(route, () => { if (modals.modals[modalName]) closeModal() })] *)
Definition route_callback : M unit :=
  name ← gets modalName;
  ms ← gets modals;
  match ms !! name with
  | Some _ => closeModal
  | None => mret tt
  end.

(** A DOM event delivered to an element of the template: every
    [closeModal()] handler it reaches runs. *)
Definition dispatch (target : Node) (ev : DomEvent) : M unit :=
  im ← gets (λ w, imageModal (props w));
  times (hits im target ev) closeModal.

(** ** What can happen to a binding *)

Inductive Event :=
| Mounted                              (* the mounted hook runs *)
| StoreWrite (f : Modals → Modals)     (* some other code changes the store *)
| Dom (target : Node) (ev : DomEvent)  (* a DOM event in the dialog *)
| RouteChanged                         (* the route watcher's callback runs *)
| PropsChanged (p : Props)             (* the parent passes new props *)
| Flush.                               (* the scheduler runs the isOpen watcher's job *)

Definition handle (e : Event) : M unit :=
  match e with
  | Mounted => onMounted
  | StoreWrite f => store_write f
  | Dom target ev => dispatch target ev
  | RouteChanged => route_callback
  | PropsChanged p => modify (set_props p)
  | Flush => watch_job
  end.

Definition step (e : Event) (w : World) : World := exec (handle e) w.

Definition run (es : list Event) (w : World) : World := foldl (λ w e, step e w) w es.

(** Events of the binding itself: no other code writes the store. *)
Definition own (e : Event) : bool :=
  match e with
  | StoreWrite _ => false
  | _ => true
  end.

(** Any event but the mounted hook. *)
Definition later (e : Event) : bool :=
  match e with
  | Mounted => false
  | _ => true
  end.

(** One execution of the close protocol, as seen from outside. *)
Definition protocol (name : string) : list Effect :=
  [Emit "closeModal" []; Called CloseModal name].

(** How many times [closeModal] runs when [e] is handled in [w]. *)
Definition executions (e : Event) (w : World) : nat :=
  match e with
  | Dom target ev => hits (imageModal (props w)) target ev
  | RouteChanged => match modals w !! modalName w with Some _ => 1 | None => 0 end
  | _ => 0
  end.

(** Whether the store shows [k] as open; a name without entry is not. *)
Definition is_open (ms : Modals) (k : string) : bool :=
  default false (isOpen <$> ms !! k).

(** The watcher has seen the entry's present value: nothing it would
    react to is pending. *)
Definition synced (w : World) : Prop := watched w = registry_value w.

(** The flag is the value the watcher saw last, when it saw one and that
    value meets the condition [c]. *)
Definition agrees (c : option bool → Prop) (w : World) : Prop :=
  c (watched w) → ∀ v, watched w = Some v → modalIsOpen w = v.

(** A handler that leaves the flag alone or leaves it equal to the entry's
    value in the store. *)
Definition copies_only (m : M unit) : Prop :=
  ∀ w, modalIsOpen (exec m w) = modalIsOpen w
       ∨ registry_value (exec m w) = Some (modalIsOpen (exec m w)).

(** The parent changes the [modalName] prop to [n]. *)
Definition rename (n : string) (w : World) : World :=
  set_props {| imageModal := imageModal (props w); prop_modalName := n |} w.

(** From [w] to [w'] nothing was opened: no name the store shows open in
    [w'] was not open in [w], and the flag is [true] in [w'] only if it was in
    [w] or the entry of the bound name was open in [w]. *)
Definition nothing_opened (w w' : World) : Prop :=
  modalName w' = modalName w
  ∧ (∀ k, is_open (modals w') k = true → is_open (modals w) k = true)
  ∧ (modalIsOpen w' = true →
     modalIsOpen w = true ∨ is_open (modals w) (modalName w) = true).

(** The variant's close control. *)
Definition close_control (im : bool) : Node :=
  if im then ImageCloseButton else CardCloseButton.

(** An event that is not the bound modal's business: a prop change, a write
    to the store by other code that leaves the entry of [name] as it is
    (another modal opened or closed, say), or the watcher's job run after
    such events. *)
Definition foreign (name : string) (e : Event) : Prop :=
  match e with
  | StoreWrite f => ∀ ms, f ms !! name = ms !! name
  | PropsChanged _ => True
  | Flush => True
  | _ => False
  end.

End Binding.

(** ** Bindings over the store of the spec *)

(** A card-style dialog and an image dialog bound to "search". *)
Definition card : Props := {| imageModal := false; prop_modalName := "search" |}.
Definition image : Props := {| imageModal := true; prop_modalName := "search" |}.

(** The binding set up and mounted after open("search"). *)
Definition opened (p : Props) : World :=
  @step Registry.store Mounted (setup p (Registry.openModal "search" ∅)).

(** * Properties *)

Section Facts.

Context {the_store : ModalStore}.

(** ** Basic facts *)

Ltac unfold_m :=
  unfold step, handle, route_callback, closeModal, onMounted, modals_call,
    store_write, emit, watch_job, callback, getter, exec, gets, modify,
    mbind, M_bind, mret, M_ret in *;
  simpl in *.

(** The watcher's job, in one equation. *)
Lemma watch_job_eq w :
  exec watch_job w =
    if decide (registry_value w = watched w) then w
    else set_watched (registry_value w)
           (match registry_value w with
            | Some v => set_modalIsOpen v w
            | None => w
            end).
Proof.
  unfold_m. destruct (decide (registry_value w = watched w)); [done|].
  by destruct (registry_value w).
Qed.

Lemma store_write_eq f w : exec (store_write f) w = set_modals f w.
Proof. done. Qed.

(** [closeModal] is the two records followed by the store's own write. *)
Lemma closeModal_eq w :
  exec closeModal w =
    set_modals (store_action CloseModal (modalName w))
      (record (Called CloseModal (modalName w)) (record (Emit "closeModal" []) w)).
Proof. done. Qed.

Lemma exec_times_S k (m : M unit) w :
  exec (times (S k) m) w = exec (times k m) (exec m w).
Proof. done. Qed.

Lemma watch_job_frame w :
  props (exec watch_job w) = props w ∧ modals (exec watch_job w) = modals w
  ∧ modalName (exec watch_job w) = modalName w ∧ log (exec watch_job w) = log w
  ∧ watched (exec watch_job w) = registry_value w.
Proof.
  rewrite watch_job_eq. destruct (decide _) as [->|]; [done|].
  by destruct (registry_value w).
Qed.

Lemma closeModal_frame w :
  props (exec closeModal w) = props w
  ∧ modals (exec closeModal w) = store_action CloseModal (modalName w) (modals w)
  ∧ modalName (exec closeModal w) = modalName w
  ∧ log (exec closeModal w) = log w ++ protocol (modalName w).
Proof. rewrite closeModal_eq. simpl. by rewrite <- app_assoc. Qed.

(** [closeModal] itself writes neither the flag nor the watcher's value. *)
Lemma closeModal_view w :
  modalIsOpen (exec closeModal w) = modalIsOpen w
  ∧ watched (exec closeModal w) = watched w.
Proof. done. Qed.

Lemma times_closeModal_frame k w :
  props (exec (times k closeModal) w) = props w
  ∧ modalName (exec (times k closeModal) w) = modalName w
  ∧ modals (exec (times k closeModal) w)
      = Nat.iter k (store_action CloseModal (modalName w)) (modals w)
  ∧ log (exec (times k closeModal) w)
      = log w ++ mjoin (replicate k (protocol (modalName w))).
Proof.
  revert w. induction k as [|k IH]; intros w.
  - simpl. by rewrite app_nil_r.
  - rewrite exec_times_S.
    destruct (IH (exec closeModal w)) as (-> & -> & -> & ->).
    destruct (closeModal_frame w) as (-> & -> & -> & ->).
    repeat split; [|].
    + clear. induction k as [|k IH]; [done|]. simpl. by rewrite IH.
    + simpl. by rewrite <- app_assoc.
Qed.

Lemma times_closeModal_view k w :
  modalIsOpen (exec (times k closeModal) w) = modalIsOpen w
  ∧ watched (exec (times k closeModal) w) = watched w.
Proof.
  revert w. induction k as [|k IH]; intros w; [done|].
  rewrite exec_times_S. destruct (IH (exec closeModal w)) as (-> & ->).
  apply closeModal_view.
Qed.

Lemma dispatch_eq target ev w :
  exec (dispatch target ev) w
    = exec (times (hits (imageModal (props w)) target ev) closeModal) w.
Proof. done. Qed.

Lemma route_callback_eq w :
  exec route_callback w
    = match modals w !! modalName w with
      | Some _ => exec closeModal w
      | None => w
      end.
Proof.
  unfold route_callback, exec, mbind, M_bind, gets; simpl.
  by destruct (modals w !! modalName w).
Qed.

Lemma step_modalName e w : modalName (step e w) = modalName w.
Proof.
  destruct e as [|f|t ev| |p|]; unfold step; simpl.
  - unfold_m. by destruct (modals w !! modalName w).
  - done.
  - rewrite dispatch_eq.
    by destruct (times_closeModal_frame (hits (imageModal (props w)) t ev) w) as (_ & -> & _).
  - rewrite route_callback_eq. destruct (modals w !! modalName w); [|done].
    by destruct (closeModal_frame w) as (_ & _ & -> & _).
  - done.
  - by destruct (watch_job_frame w) as (_ & _ & -> & _).
Qed.

Lemma step_log e w :
  log (step e w) = log w ++ mjoin (replicate (executions e w) (protocol (modalName w))).
Proof.
  destruct e as [|f|t ev| |p|]; unfold step; simpl.
  - unfold_m. rewrite app_nil_r. by destruct (modals w !! modalName w).
  - by rewrite app_nil_r.
  - rewrite dispatch_eq.
    by destruct (times_closeModal_frame (hits (imageModal (props w)) t ev) w) as (_ & _ & _ & ->).
  - rewrite route_callback_eq.
    destruct (modals w !! modalName w); [|by rewrite app_nil_r].
    by destruct (closeModal_frame w) as (_ & _ & _ & ->).
  - by rewrite app_nil_r.
  - rewrite app_nil_r. by destruct (watch_job_frame w) as (_ & _ & _ & -> & _).
Qed.

(** ** The close protocol *)


(** C2: on a route change the close protocol runs exactly once when the
    store holds an entry for the captured name, whatever its [isOpen] says
    (so also when the modal is closed already), and does not run at all, and
    nothing else changes, when the store holds no entry. *)
Theorem route_change_closes_existing w :
  step RouteChanged w
    = match modals w !! modalName w with
      | Some _ => exec closeModal w
      | None => w
      end
  ∧ log (step RouteChanged w)
    = log w ++ match modals w !! modalName w with
               | Some _ => protocol (modalName w)
               | None => []
               end.
Proof.
  split.
  - apply route_callback_eq.
  - rewrite step_log. simpl.
    destruct (modals w !! modalName w); simpl; by rewrite ?app_nil_r.
Qed.

(** ** Mounting *)

(** C4: the mounted hook copies the entry's [isOpen] into the local flag when
    the store holds an entry for the captured name, and leaves the flag as it
    is otherwise. Right after setup the flag is [false], so a binding mounts
    to the entry's value or, without an entry, to [false]; mounted after
    the store's open(n), it mounts to [true]. *)
Theorem mounted_copies_entry :
  (∀ w, modalIsOpen (exec onMounted w)
        = match modals w !! modalName w with
          | Some m => isOpen m
          | None => modalIsOpen w
          end)
  ∧ (∀ p ms, modalIsOpen (exec onMounted (setup p ms))
             = match ms !! prop_modalName p with
               | Some m => isOpen m
               | None => false
               end)
  ∧ (∀ p ms, modalIsOpen
               (exec onMounted (setup p (Registry.openModal (prop_modalName p) ms)))
             = true).
Proof.
  split; [|split].
  - intros w. unfold_m. by destruct (modals w !! modalName w).
  - intros p ms. unfold_m. by destruct (ms !! prop_modalName p).
  - intros p ms. unfold_m. unfold Registry.openModal.
    by rewrite lookup_insert_eq.
Qed.

(** C7: the mounted hook only reads the store. For a name the store has no
    entry for, mounting leaves the flag [false], leaves the store as it was
    (so still without an entry for the name) and has no effect outside. *)
Theorem mounted_leaves_store :
  (∀ w, modals (exec onMounted w) = modals w ∧ log (exec onMounted w) = log w)
  ∧ (∀ p ms, ms !! prop_modalName p = None →
       let w := exec onMounted (setup p ms) in
       modalIsOpen w = false ∧ modals w = ms
       ∧ modals w !! modalName w = None ∧ log w = []).
Proof.
  split.
  - intros w. unfold_m. by destruct (modals w !! modalName w).
  - intros p ms Habsent. unfold_m. by rewrite Habsent.
Qed.

Lemma onMounted_frame w :
  props (exec onMounted w) = props w ∧ modals (exec onMounted w) = modals w
  ∧ modalName (exec onMounted w) = modalName w ∧ log (exec onMounted w) = log w
  ∧ watched (exec onMounted w) = watched w.
Proof. unfold_m. by destruct (modals w !! modalName w). Qed.

(** ** The watcher *)

Lemma registry_value_ext w w' :
  modals w' = modals w → modalName w' = modalName w →
  registry_value w' = registry_value w.
Proof. unfold registry_value. by intros -> ->. Qed.

Lemma watch_job_flag w :
  modalIsOpen (exec watch_job w)
    = if decide (registry_value w = watched w) then modalIsOpen w
      else default (modalIsOpen w) (registry_value w).
Proof.
  rewrite watch_job_eq. destruct (decide _); [done|].
  by destruct (registry_value w).
Qed.

Lemma watch_job_registry_value w :
  registry_value (exec watch_job w) = registry_value w.
Proof.
  destruct (watch_job_frame w) as (_ & Hm & Hn & _).
  by apply registry_value_ext.
Qed.

Lemma watch_job_synced w : synced (exec watch_job w).
Proof.
  unfold synced. rewrite watch_job_registry_value.
  by destruct (watch_job_frame w) as (_ & _ & _ & _ & ->).
Qed.

Lemma watch_job_agrees c w : agrees c w → agrees c (exec watch_job w).
Proof.
  unfold agrees. destruct (watch_job_frame w) as (_ & _ & _ & _ & ->).
  rewrite watch_job_flag. intros Hag Hc v Hv.
  destruct (decide _) as [Heq|_].
  - rewrite Heq in Hc, Hv. by apply Hag.
  - by rewrite Hv.
Qed.

Lemma watch_job_copies : copies_only watch_job.
Proof.
  intros w. rewrite watch_job_registry_value, watch_job_flag.
  destruct (decide _); [by left|].
  destruct (registry_value w); [by right | by left].
Qed.

Lemma onMounted_agrees c w : synced w → agrees c (exec onMounted w).
Proof.
  unfold synced, agrees, registry_value. intros Hs _ v.
  destruct (onMounted_frame w) as (_ & _ & _ & _ & ->).
  rewrite Hs. unfold_m.
  destruct (modals w !! modalName w) as [m|]; simpl; [|done].
  by intros [= ->].
Qed.

(** What an event other than the mounted hook or the watcher's job leaves
    of the view: the flag and the value the watcher holds. *)
Lemma step_view e w :
  later e = true → e ≠ Flush →
  modalIsOpen (step e w) = modalIsOpen w ∧ watched (step e w) = watched w.
Proof.
  intros Hl Hf. destruct e as [|f|t ev| |p|]; try done; unfold step; simpl.
  - rewrite dispatch_eq. apply times_closeModal_view.
  - rewrite route_callback_eq. by destruct (modals w !! modalName w).
Qed.

Lemma step_agrees c e w : later e = true → agrees c w → agrees c (step e w).
Proof.
  intros Hl Ha.
  destruct e as [|f|t ev| |p|] eqn:He; [done| | | | |by apply watch_job_agrees];
    unfold agrees;
    by destruct (step_view e w) as (Hf & Hw); subst e;
      [done | discriminate | rewrite Hf, Hw].
Qed.

Lemma run_agrees c es w :
  Forall (λ e, later e = true) es → agrees c w → agrees c (run es w).
Proof.
  intros Hall. revert w. induction Hall as [|e es He _ IH]; intros w Ha; [done|].
  simpl. by apply IH, step_agrees.
Qed.

Lemma setup_synced p ms : synced (setup p ms).
Proof. done. Qed.

Lemma run_cons e es w : run (e :: es) w = run es (step e w).
Proof. done. Qed.

Lemma run_modalName es w : modalName (run es w) = modalName w.
Proof.
  revert w. induction es as [|e es IH]; intros w; [done|].
  simpl. by rewrite IH, step_modalName.
Qed.

(** A tick's worth of writes by other code: the store is as written, the
    view and the log are as before. *)
Lemma run_writes fs w :
  modals (run (StoreWrite <$> fs) w) = foldl (λ ms f, f ms) (modals w) fs
  ∧ modalName (run (StoreWrite <$> fs) w) = modalName w
  ∧ modalIsOpen (run (StoreWrite <$> fs) w) = modalIsOpen w
  ∧ watched (run (StoreWrite <$> fs) w) = watched w
  ∧ log (run (StoreWrite <$> fs) w) = log w.
Proof.
  revert w. induction fs as [|f fs IH]; intros w; [done|].
  rewrite fmap_cons, run_cons.
  by destruct (IH (step (StoreWrite f) w)) as (-> & -> & -> & -> & ->).
Qed.

(** One tick: the job has run, other code writes the store, the job runs. *)
Lemma tick w0 fs :
  registry_value (step Flush (run (StoreWrite <$> fs) (step Flush w0)))
    = registry_value (run (StoreWrite <$> fs) (step Flush w0))
  ∧ modalIsOpen (step Flush (run (StoreWrite <$> fs) (step Flush w0)))
    = (if decide (registry_value (run (StoreWrite <$> fs) (step Flush w0))
                  = registry_value (step Flush w0))
       then modalIsOpen (step Flush w0)
       else default (modalIsOpen (step Flush w0))
              (registry_value (run (StoreWrite <$> fs) (step Flush w0))))
  ∧ modals (step Flush (run (StoreWrite <$> fs) (step Flush w0)))
    = foldl (λ ms f, f ms) (modals w0) fs
  ∧ log (step Flush (run (StoreWrite <$> fs) (step Flush w0))) = log w0.
Proof.
  destruct (run_writes fs (step Flush w0)) as (Hm & _ & Hf & Hw & Hl).
  pose proof (watch_job_synced w0) as Hs. unfold synced in Hs.
  pose proof (watch_job_frame w0) as (_ & Hm0 & _ & Hl0 & _).
  set (w1 := run (StoreWrite <$> fs) (step Flush w0)) in *.
  change (step Flush w1) with (exec watch_job w1).
  change (step Flush w0) with (exec watch_job w0) in *.
  destruct (watch_job_frame w1) as (_ & -> & _ & -> & _).
  rewrite watch_job_registry_value, watch_job_flag, Hw, Hs, Hf, Hm, Hl, Hm0, Hl0.
  done.
Qed.

Lemma onMounted_copies : copies_only onMounted.
Proof.
  intros w. destruct (onMounted_frame w) as (_ & Hm & Hn & _).
  rewrite (registry_value_ext _ _ Hm Hn). unfold registry_value. unfold_m.
  destruct (modals w !! modalName w); [by right | by left].
Qed.

Lemma store_write_copies f : copies_only (store_write f).
Proof. intros w. by left. Qed.

Lemma closeModal_copies : copies_only closeModal.
Proof. intros w. by left. Qed.

Lemma route_callback_copies : copies_only route_callback.
Proof.
  intros w. rewrite route_callback_eq.
  destruct (modals w !! modalName w); [apply closeModal_copies | by left].
Qed.

(** C5, as the code has it: the entry's change reaches the flag when the
    watcher's job runs, not in the write. After a flush, any writes to the
    store by other code and the next flush, the flag is the entry's value
    if that value is defined and differs from the one at the earlier flush;
    until the job runs a write leaves the flag as it was, and a change
    undone before the job runs is not copied. The propagation emits
    nothing, calls no store action and leaves the store as written
    (registry to view only). And the flag has no other writer: each handler
    of the binding either keeps the flag or leaves it equal to the entry's
    value, and every event is handled by a sequence of such handlers. *)
Theorem registry_change_propagates :
  (∀ w0 fs v,
     let w := step Flush w0 in
     let w' := step Flush (run (StoreWrite <$> fs) w) in
     registry_value w' = Some v →
     registry_value w' ≠ registry_value w →
     modalIsOpen w' = v)
  ∧ (∀ w0 fs,
       let w := step Flush w0 in
       let w' := step Flush (run (StoreWrite <$> fs) w) in
       (registry_value w' = registry_value w → modalIsOpen w' = modalIsOpen w)
       ∧ modals w' = foldl (λ ms f, f ms) (modals w0) fs
       ∧ log w' = log w0)
  ∧ (∀ f w, modalIsOpen (step (StoreWrite f) w) = modalIsOpen w)
  ∧ copies_only onMounted
  ∧ copies_only watch_job
  ∧ (∀ f, copies_only (store_write f))
  ∧ copies_only closeModal
  ∧ copies_only route_callback
  ∧ (∀ p, copies_only (modify (set_props p)))
  ∧ (∀ e w, ∃ ops, Forall copies_only ops
                   ∧ step e w = foldl (λ w m, exec m w) w ops).
Proof.
  pose proof onMounted_copies as Hmount.
  pose proof watch_job_copies as Hjob.
  pose proof store_write_copies as Hwrite.
  pose proof closeModal_copies as Hclose.
  pose proof route_callback_copies as Hroute.
  assert (Hprops : ∀ p, copies_only (modify (set_props p))).
  { intros p w. by left. }
  split; [|split; [|split; [done|]]]; [| |do 6 (split; [done|])].
  - intros w0 fs v w w' Hv Hne. subst w w'.
    destruct (tick w0 fs) as (Hr & -> & _). rewrite Hr in Hv, Hne.
    rewrite Hv in *. by destruct (decide _).
  - intros w0 fs w w'. subst w w'.
    destruct (tick w0 fs) as (Hr & -> & -> & ->). rewrite Hr.
    split; [|done]. intros Heq. by destruct (decide _).
  - intros e w. destruct e as [|f|t ev| |p|].
    + exists [onMounted]. by split; [constructor|].
    + exists [store_write f]. by split; [constructor|].
    + exists (replicate (hits (imageModal (props w)) t ev) closeModal). split.
      * apply Forall_replicate, Hclose.
      * unfold step; simpl. rewrite dispatch_eq.
        generalize (hits (imageModal (props w)) t ev). intros k. revert w.
        induction k as [|k IH]; intros w; [done|].
        rewrite exec_times_S. simpl. apply IH.
    + exists [route_callback]. by split; [constructor|].
    + exists [modify (set_props p)]. by split; [constructor|].
    + exists [watch_job]. by split; [constructor|].
Qed.

(** C6, as the code has it: the flag follows the entry from one run of the
    watcher's job to the next, not at every point. If the watcher has
    nothing pending when the mounted hook runs, then after any later events
    (writes to the store by other code, DOM events, route changes, prop
    changes, runs of the watcher's job), at every point where the watcher
    has seen the entry's present value, the local flag equals the entry's
    [isOpen] whenever the store holds an entry for the captured name. *)
Theorem no_drift p ms pre post m :
  let w0 := run pre (setup p ms) in
  let w := run post (step Mounted w0) in
  synced w0 →
  Forall (λ e, later e = true) post →
  synced w →
  modals w !! modalName w = Some m →
  modalIsOpen w = isOpen m.
Proof.
  intros w0 w Hs0 Hpost Hs Hm.
  assert (Ha : agrees (λ _, True) w).
  { apply run_agrees; [done|]. by apply onMounted_agrees. }
  apply Ha; [done|]. rewrite Hs. unfold registry_value. by rewrite Hm.
Qed.

(** C10: when a write to the store removes the entry for the captured name,
    the local flag keeps the value it had, in the write and when the
    watcher's job runs after it: the getter reads [undefined] and the
    callback assigns nothing. The flag is not reset to [false]. *)
Theorem absent_entry_keeps_flag w f :
  f (modals w) !! modalName w = None →
  modalIsOpen (step (StoreWrite f) w) = modalIsOpen w
  ∧ modalIsOpen (step Flush (step (StoreWrite f) w)) = modalIsOpen w
  ∧ watched (step Flush (step (StoreWrite f) w)) = None
  ∧ exec (callback None) w = w.
Proof.
  intros Hnone.
  assert (Hv : registry_value (step (StoreWrite f) w) = None).
  { unfold registry_value, step; simpl. by rewrite Hnone. }
  split; [done|]. split; [|split; [|done]]; unfold step at 1; simpl.
  - rewrite watch_job_flag, Hv. simpl. by destruct (decide _).
  - by destruct (watch_job_frame (step (StoreWrite f) w)) as (_ & _ & _ & _ & ->).
Qed.

(** ** The captured name *)

Lemma watch_job_rename n w :
  exec watch_job (rename n w) = rename n (exec watch_job w).
Proof.
  rewrite !watch_job_eq.
  change (registry_value (rename n w)) with (registry_value w).
  change (watched (rename n w)) with (watched w).
  destruct (decide _); [done|]. by destruct (registry_value w).
Qed.

Lemma closeModal_rename n w :
  exec closeModal (rename n w) = rename n (exec closeModal w).
Proof. done. Qed.

Lemma times_closeModal_rename k n w :
  exec (times k closeModal) (rename n w) = rename n (exec (times k closeModal) w).
Proof.
  revert w. induction k as [|k IH]; intros w; [done|].
  by rewrite !exec_times_S, closeModal_rename, IH.
Qed.

Lemma step_rename e n w :
  step e (rename n w)
    = match e with
      | PropsChanged _ => step e w
      | _ => rename n (step e w)
      end.
Proof.
  destruct e as [|f|t ev| |p|]; unfold step; simpl.
  - unfold_m. unfold rename; simpl. by destruct (modals w !! modalName w).
  - done.
  - rewrite !dispatch_eq. apply times_closeModal_rename.
  - rewrite !route_callback_eq.
    change (modals (rename n w)) with (modals w).
    change (modalName (rename n w)) with (modalName w).
    destruct (modals w !! modalName w); [apply closeModal_rename | done].
  - done.
  - apply watch_job_rename.
Qed.

Lemma run_rename es n w : ∃ n', run es (rename n w) = rename n' (run es w).
Proof.
  revert n w. induction es as [|e es IH]; intros n w; simpl.
  - by exists n.
  - rewrite step_rename. destruct e; try apply IH.
    destruct (props (run es (step (PropsChanged p) w))) as [im n'] eqn:Hp.
    exists n'. unfold rename, set_props. rewrite Hp. simpl.
    by destruct (run es (step (PropsChanged p) w)); simpl in *; subst.
Qed.

Lemma run_log es w :
  ∃ k, log (run es w) = log w ++ mjoin (replicate k (protocol (modalName w))).
Proof.
  revert w. induction es as [|e es IH]; intros w; simpl.
  - exists 0. by rewrite app_nil_r.
  - destruct (IH (step e w)) as [k ->].
    rewrite step_log, step_modalName. exists (executions e w + k).
    by rewrite replicate_add, join_app, app_assoc.
Qed.

(** C9: the name is read from the props once, in setup. Whatever events
    follow, prop changes among them, the binding's name is the one the
    props had at setup, and every store call in its log is the close action
    for that name. A change of the [modalName] prop alone has no other
    consequence: the run after it differs from the run without it in the
    prop's own value at most. *)
Theorem modalName_captured_once :
  (∀ p ms es, modalName (run es (setup p ms)) = prop_modalName p)
  ∧ (∀ p ms es a n, Called a n ∈ log (run es (setup p ms)) →
                    a = CloseModal ∧ n = prop_modalName p)
  ∧ (∀ es w n, ∃ n', run es (rename n w) = rename n' (run es w)).
Proof.
  split; [|split].
  - intros p ms es. by rewrite run_modalName.
  - intros p ms es a n. destruct (run_log es (setup p ms)) as [k ->]. simpl.
    intros (l & Hl & Hrep)%list_elem_of_join.
    apply elem_of_replicate in Hrep as [-> _].
    unfold protocol in Hl.
    apply elem_of_cons in Hl as [Hl|Hl]; [done|].
    apply list_elem_of_singleton in Hl. by injection Hl as -> ->.
  - intros es w n. apply run_rename.
Qed.

(** ** The binding opens nothing *)

Lemma step_modals_own e w :
  own e = true →
  modals (step e w)
    = Nat.iter (executions e w) (store_action CloseModal (modalName w)) (modals w).
Proof.
  intros Hown. destruct e as [|f|t ev| |p|]; unfold step; simpl; try done.
  - by destruct (onMounted_frame w) as (_ & -> & _).
  - rewrite dispatch_eq.
    by destruct (times_closeModal_frame (hits (imageModal (props w)) t ev) w)
      as (_ & _ & -> & _).
  - rewrite route_callback_eq. destruct (modals w !! modalName w) eqn:Hm; [|done].
    by destruct (closeModal_frame w) as (_ & -> & _).
  - by destruct (watch_job_frame w) as (_ & -> & _).
Qed.

Lemma run_own_effects es w :
  Forall (λ e, own e = true) es →
  ∃ k, log (run es w) = log w ++ mjoin (replicate k (protocol (modalName w)))
       ∧ modals (run es w)
           = Nat.iter k (store_action CloseModal (modalName w)) (modals w).
Proof.
  intros Hown. revert w. induction Hown as [|e es He _ IH]; intros w; simpl.
  - exists 0. by rewrite app_nil_r.
  - destruct (IH (step e w)) as (k & -> & ->).
    rewrite step_log, step_modalName, (step_modals_own e w He).
    exists (k + executions e w). split.
    + by rewrite (Nat.add_comm k), replicate_add, join_app, app_assoc.
    + by rewrite Nat.iter_add.
Qed.

Lemma nothing_opened_refl w : nothing_opened w w.
Proof. unfold nothing_opened. auto. Qed.

Lemma nothing_opened_trans w1 w2 w3 :
  nothing_opened w1 w2 → nothing_opened w2 w3 → nothing_opened w1 w3.
Proof.
  intros (Hn1 & Hs1 & Hf1) (Hn2 & Hs2 & Hf2). split; [congruence|]. split.
  - auto.
  - intros H3. destruct (Hf2 H3) as [H2|H2]; [auto|].
    right. rewrite Hn1 in H2. auto.
Qed.

(** A handler that only copies and opens nothing in the store opens nothing. *)
Lemma copies_nothing_opened (m : M unit) w :
  copies_only m →
  modalName (exec m w) = modalName w →
  (∀ k, is_open (modals (exec m w)) k = true → is_open (modals w) k = true) →
  nothing_opened w (exec m w).
Proof.
  intros Hc Hn Hs. split; [done|]. split; [done|].
  intros Ht. destruct (Hc w) as [Heq|Heq]; [left; congruence|].
  right. apply Hs. rewrite <- Hn. unfold is_open.
  unfold registry_value in Heq. by rewrite Heq, Ht.
Qed.

Section NeverOpens.

(** What is asked of the store: its close action opens nothing. *)
Hypothesis close_opens_nothing :
  ∀ n ms k, is_open (store_action CloseModal n ms) k = true → is_open ms k = true.

Lemma closeModal_nothing_opened w : nothing_opened w (exec closeModal w).
Proof.
  destruct (closeModal_frame w) as (_ & Hm & Hn & _).
  apply copies_nothing_opened; [apply closeModal_copies | done |].
  intros k. rewrite Hm. apply close_opens_nothing.
Qed.

Lemma times_closeModal_nothing_opened k w :
  nothing_opened w (exec (times k closeModal) w).
Proof.
  revert w. induction k as [|k IH]; intros w; [apply nothing_opened_refl|].
  rewrite exec_times_S.
  eapply nothing_opened_trans; [apply closeModal_nothing_opened | apply IH].
Qed.

Lemma step_nothing_opened e w : own e = true → nothing_opened w (step e w).
Proof.
  intros Hown. destruct e as [|f|t ev| |p|]; unfold step; simpl; try done.
  - destruct (onMounted_frame w) as (_ & Hm & Hn & _).
    apply copies_nothing_opened; [apply onMounted_copies | done |].
    by rewrite Hm.
  - rewrite dispatch_eq. apply times_closeModal_nothing_opened.
  - rewrite route_callback_eq.
    destruct (modals w !! modalName w);
      [apply closeModal_nothing_opened | apply nothing_opened_refl].
  - unfold nothing_opened, exec; simpl. auto.
  - destruct (watch_job_frame w) as (_ & Hm & Hn & _).
    apply copies_nothing_opened; [apply watch_job_copies | done |].
    by rewrite Hm.
Qed.

Lemma run_nothing_opened es w :
  Forall (λ e, own e = true) es → nothing_opened w (run es w).
Proof.
  intros Hown. revert w.
  induction Hown as [|e es He _ IH]; intros w; simpl.
  - apply nothing_opened_refl.
  - eapply nothing_opened_trans; [by apply step_nothing_opened | apply IH].
Qed.

(** C8: over a store whose close action opens nothing, any sequence of the
    binding's own events (mount, DOM events in the dialog, route changes,
    prop changes, runs of its watcher's job) adds to the log only
    executions of the close protocol,
    writes the store only by calling its close action for the bound name,
    and never calls its open action; no name is open in the store afterwards
    that was not open before; and the local flag is [true] afterwards only if
    it was [true] before or the entry of the bound name was open before. *)
Theorem binding_never_opens es w :
  Forall (λ e, own e = true) es →
  (∃ k, log (run es w) = log w ++ mjoin (replicate k (protocol (modalName w)))
        ∧ modals (run es w)
            = Nat.iter k (store_action CloseModal (modalName w)) (modals w))
  ∧ (∀ n, Called OpenModal n ∈ log (run es w) → Called OpenModal n ∈ log w)
  ∧ (∀ k, is_open (modals (run es w)) k = true → is_open (modals w) k = true)
  ∧ (modalIsOpen (run es w) = true →
     modalIsOpen w = true ∨ is_open (modals w) (modalName w) = true).
Proof.
  intros Hown. split; [by apply run_own_effects|]. split.
  - intros n. destruct (run_log es w) as [k ->].
    rewrite elem_of_app. intros [H|H]; [done|].
    apply list_elem_of_join in H as (l & Hl & Hrep).
    apply elem_of_replicate in Hrep as [-> _]. unfold protocol in Hl.
    apply elem_of_cons in Hl as [Hl|Hl]; [done|].
    by apply list_elem_of_singleton in Hl.
  - by destruct (run_nothing_opened es w Hown) as (_ & Hs & Hf).
Qed.

End NeverOpens.

(** ** Which DOM events dismiss *)

(** C3, as the template has it. Clicks: in the image variant a click on the
    slot container or anything in it runs the close protocol, and so does a
    click on the close control; in the card variant, of all clicks on the
    panel or inside it only the one on the close control does. In both
    variants a click on the wrapping element itself, outside the panel,
    runs it too. Keys: Enter pressed on the wrapping element or anywhere
    inside it runs the close protocol in both variants, the card variant
    included; Escape does so in the image variant only, on the slot
    container. Each of these runs the protocol once; the backdrop element
    has no handler, and no other event dismisses. *)
Theorem dismiss_targets :
  (∀ w, step (Dom Wrapper Click) w = exec closeModal w
        ∧ step (Dom Wrapper (Keydown Enter)) w = exec closeModal w)
  ∧ (∀ im target,
       hits im target Click
         = if bool_decide (target = Wrapper ∨ target = close_control im)
              || (im && bool_decide (target ∈ [ImageSlotBox; SlotContent]))
           then 1 else 0)
  ∧ (∀ im target,
       hits im target (Keydown Enter)
         = if in_variant im target && bool_decide (target ≠ Backdrop)
           then 1 else 0)
  ∧ (∀ target, hits false target (Keypress Esc) = 0)
  ∧ hits true ImageSlotBox (Keypress Esc) = 1
  ∧ hits true SlotContent (Keypress Esc) = 1
  ∧ (∀ im ev, hits im Backdrop ev = 0)
  ∧ (∀ im target ev, (1 ≤ hits im target ev)%nat →
       ev = Click ∨ ev = Keydown Enter ∨ (im = true ∧ ev = Keypress Esc)).
Proof.
  split; [|split; [|split; [|split; [|split; [|split; [|split]]]]]].
  - intros w. unfold step; simpl. rewrite !dispatch_eq.
    by destruct (imageModal (props w)).
  - by intros [] [].
  - by intros [] [].
  - by intros [].
  - done.
  - done.
  - by intros [] [|[]|[]].
  - intros [] [] [|[]|[]]; vm_compute; intros H; auto; lia.
Qed.

End Facts.

(** * Further properties of the component *)

Section Coverage.

Context {the_store : ModalStore}.

(** ** The template: how often a DOM event dismisses *)

Lemma hits_outside im target ev :
  in_variant im target = false ∨ target = Backdrop → hits im target ev = 0.
Proof.
  destruct im, target; vm_compute; intros [Hr|Hb]; try discriminate;
    by destruct ev as [|[]|[]].
Qed.

Lemma hits_le_1 im target ev : (hits im target ev ≤ 1)%nat.
Proof. destruct im, target, ev as [|[]|[]]; vm_compute; lia. Qed.

(** X1: a click on the variant's close control runs [closeModal] exactly
    once. The button's own handler runs; the panel stops the click before it
    reaches the wrapping element's handler. The caller gets one
    "closeModal" event and the store one close call for the bound name. *)
Theorem close_control_click_runs_once w :
  let w' := step (Dom (close_control (imageModal (props w))) Click) w in
  w' = exec closeModal w
  ∧ log w' = log w ++ protocol (modalName w)
  ∧ modals w' = store_action CloseModal (modalName w) (modals w).
Proof.
  intros w'. subst w'. unfold step; cbn [handle]. rewrite dispatch_eq.
  assert (Hk : hits (imageModal (props w))
                 (close_control (imageModal (props w))) Click = 1)
    by by destruct (imageModal (props w)).
  rewrite Hk. change (exec (times 1 closeModal) w) with (exec closeModal w).
  split; [done|].
  by destruct (closeModal_frame w) as (_ & -> & _ & ->).
Qed.

(** X2: no DOM event runs [closeModal] more than once, and an event on an
    element that the current variant's template does not have, or on the
    backdrop element, changes nothing at all. *)
Theorem dom_event_at_most_once w target ev :
  (executions (Dom target ev) w ≤ 1)%nat
  ∧ (in_variant (imageModal (props w)) target = false ∨ target = Backdrop →
     step (Dom target ev) w = w).
Proof.
  split.
  - apply hits_le_1.
  - intros Hno. unfold step; simpl. rewrite dispatch_eq.
    by rewrite (hits_outside _ _ ev Hno).
Qed.

(** X5: Escape dismisses only through the image variant's slot container,
    whose handler is bound to [keypress]: a keypress of Escape on that
    container or on the slot content runs [closeModal] once; on any other
    element, or in the card variant, it runs nothing, and a [keydown] of
    Escape runs nothing anywhere. *)
Theorem escape_only_in_image_slot im target :
  hits im target (Keypress Esc)
    = (if im && bool_decide (target ∈ [ImageSlotBox; SlotContent]) then 1 else 0)
  ∧ hits im target (Keydown Esc) = 0.
Proof. by destruct im, target. Qed.

(** ** The hooks *)

(** X6: the mounted hook and the watcher's job are idempotent: run a second
    time with nothing in between, each leaves the state as the first run
    left it (the watcher's callback is not called twice for one change). *)
Theorem hooks_idempotent w :
  exec onMounted (exec onMounted w) = exec onMounted w
  ∧ exec watch_job (exec watch_job w) = exec watch_job w.
Proof.
  split.
  - unfold onMounted, exec, mbind, M_bind, gets, modify, mret, M_ret; simpl.
    destruct (modals w !! modalName w) as [m|] eqn:Hm; simpl; by rewrite Hm.
  - rewrite (watch_job_eq (exec watch_job w)).
    pose proof (watch_job_synced w) as Hs. unfold synced in Hs.
    by destruct (decide _).
Qed.

Lemma step_foreign e w :
  synced w → foreign (modalName w) e →
  synced (step e w)
  ∧ modalName (step e w) = modalName w
  ∧ modalIsOpen (step e w) = modalIsOpen w
  ∧ watched (step e w) = watched w
  ∧ log (step e w) = log w
  ∧ modals (step e w) !! modalName w = modals w !! modalName w.
Proof.
  intros Hs Hf. destruct e as [|f|t ev| |p|]; try done.
  - unfold step; simpl. repeat split; simpl; try done.
    unfold synced, registry_value; simpl. by rewrite Hf.
  - unfold step; simpl. rewrite watch_job_eq.
    destruct (decide _) as [_|Hne]; [done|]. by destruct Hne.
Qed.

(** X7: the binding is isolated from what does not concern its modal. From
    a state in which the watcher has nothing pending, a run of prop changes,
    of writes to the store that leave the entry of the bound name as it is,
    and of runs of the watcher's job changes neither the local flag nor the
    value the watcher holds, emits nothing and calls no store action. In
    particular a binding that is set up while its modal is open, and not
    mounted yet, keeps showing closed over such a run. *)
Theorem foreign_events_leave_binding w es :
  synced w →
  Forall (foreign (modalName w)) es →
  modalIsOpen (run es w) = modalIsOpen w
  ∧ watched (run es w) = watched w
  ∧ log (run es w) = log w
  ∧ modals (run es w) !! modalName w = modals w !! modalName w.
Proof.
  intros Hs Hall. revert w Hs Hall.
  induction es as [|e es IH]; intros w Hs Hall; [done|].
  apply Forall_cons in Hall as [He Hes]. simpl.
  destruct (step_foreign e w Hs He) as (Hs' & Hn & Hf & Hw & Hl & Hm).
  rewrite <- Hf, <- Hw, <- Hl, <- Hm, <- Hn. rewrite <- Hn in Hes.
  by apply IH.
Qed.

(** X8: the component does not write what it was given. No handler changes
    the captured name, and the props change only when the parent passes new
    ones; the store is written only by a write of other code or by the
    [closeModal] calls counted for the event. *)
Theorem handlers_frame e w :
  modalName (step e w) = modalName w
  ∧ props (step e w) = match e with PropsChanged p => p | _ => props w end
  ∧ modals (step e w)
      = match e with
        | StoreWrite f => f (modals w)
        | _ => Nat.iter (executions e w)
                 (store_action CloseModal (modalName w)) (modals w)
        end.
Proof.
  split; [apply step_modalName|].
  destruct e as [|f|t ev| |p|]; unfold step; simpl.
  - by destruct (onMounted_frame w) as (-> & -> & _).
  - done.
  - rewrite dispatch_eq.
    by destruct (times_closeModal_frame (hits (imageModal (props w)) t ev) w)
      as (-> & _ & -> & _).
  - rewrite route_callback_eq. destruct (modals w !! modalName w); [|done].
    by destruct (closeModal_frame w) as (-> & -> & _).
  - done.
  - by destruct (watch_job_frame w) as (-> & -> & _).
Qed.

End Coverage.

(** ** The store of the spec, and runs over it *)

#[local] Existing Instance Registry.store.

Lemma registry_open_get n ms :
  Registry.get n (Registry.openModal n ms) = Some {| isOpen := true |}.
Proof. apply lookup_insert_eq. Qed.

Lemma registry_close_get n ms :
  Registry.get n (Registry.closeModal n ms)
    = (λ _, {| isOpen := false |}) <$> Registry.get n ms.
Proof.
  unfold Registry.get, Registry.closeModal.
  destruct (ms !! n) eqn:Hn; simpl; [apply lookup_insert_eq | done].
Qed.

Lemma registry_close_opens_nothing n ms k :
  is_open (store_action CloseModal n ms) k = true → is_open ms k = true.
Proof.
  unfold is_open, store_action, Registry.store, Registry.closeModal.
  destruct (ms !! n) eqn:Hn; [|done].
  destruct (decide (n = k)) as [->|Hne].
  - by rewrite lookup_insert_eq.
  - by rewrite lookup_insert_ne.
Qed.

Example opened_visible : modalIsOpen (opened card) = true.
Proof. reflexivity. Qed.

(** open("search"), mount, click on the card's close control: one execution
    of the protocol; the flag follows when the watcher's job runs. *)
Example card_close_button_click :
  let w := step (Dom CardCloseButton Click) (opened card) in
  log w = protocol "search"
  ∧ Registry.get "search" (modals w) = Some {| isOpen := false |}
  ∧ modalIsOpen w = true
  ∧ modalIsOpen (step Flush w) = false.
Proof. by vm_compute. Qed.

(** The same in the image variant, on the slot's content: the slot
    container's handler runs, the panel stops the click there. *)
Example image_content_click :
  log (step (Dom SlotContent Click) (opened image)) = protocol "search".
Proof. by vm_compute. Qed.

(** A click on the card's panel or on its content does nothing. *)
Example card_panel_click :
  step (Dom Panel Click) (opened card) = opened card
  ∧ step (Dom SlotContent Click) (opened card) = opened card.
Proof. by vm_compute. Qed.

(** open("search"), mount, navigate. *)
Example opened_then_route_change :
  let w := step RouteChanged (opened card) in
  log w = protocol "search"
  ∧ Registry.get "search" (modals w) = Some {| isOpen := false |}
  ∧ modalIsOpen (step Flush w) = false.
Proof. by vm_compute. Qed.

(** A second route change, the modal being closed already, runs it again. *)
Example closed_then_route_change :
  log (run [RouteChanged; RouteChanged] (opened card))
    = protocol "search" ++ protocol "search".
Proof. by vm_compute. Qed.

(** A route change for a name the store has no entry for does nothing. *)
Example absent_then_route_change :
  step RouteChanged (setup card ∅) = setup card ∅.
Proof. by vm_compute. Qed.

(** Why the watcher must have nothing pending when the mounted hook runs:
    set up on a closed entry, opened, mounted, closed again and only then
    the job run, the binding shows open for good, the job finding the value
    it saw at setup. *)
Example mounted_with_write_pending :
  let w := run [StoreWrite (Registry.openModal "search"); Mounted;
                StoreWrite (Registry.closeModal "search"); Flush]
             (setup card (Registry.closeModal "search"
                            (Registry.openModal "search" ∅))) in
  watched w = registry_value w
  ∧ Registry.get "search" (modals w) = Some {| isOpen := false |}
  ∧ modalIsOpen w = true.
Proof. by vm_compute. Qed.

(** C3, as stated, fails: in the card variant, with the dialog open, a click
    on the wrapping element (which is not the close control) runs the close
    protocol, and so does Enter pressed on the wrapping element or on the
    slot content; the modal is closed. *)
Lemma card_wrapper_dismisses :
  imageModal (props (opened card)) = false
  ∧ modalIsOpen (opened card) = true
  ∧ Wrapper ≠ close_control false
  ∧ log (step (Dom Wrapper Click) (opened card))
      = [Emit "closeModal" []; Called CloseModal "search"]
  ∧ modalIsOpen (step Flush (step (Dom Wrapper Click) (opened card))) = false
  ∧ log (step (Dom Wrapper (Keydown Enter)) (opened card))
      = [Emit "closeModal" []; Called CloseModal "search"]
  ∧ log (step (Dom SlotContent (Keydown Enter)) (opened card))
      = [Emit "closeModal" []; Called CloseModal "search"]
  ∧ modalIsOpen (step Flush (step (Dom SlotContent (Keydown Enter)) (opened card)))
      = false.
Proof. by vm_compute. Qed.

(** C5, as stated, fails: a write that changes the entry's [isOpen] from
    [true] to the defined value [false] leaves the local flag [true]; the
    flag follows only when the watcher's job has run. *)
Lemma write_awaits_flush :
  let w := opened card in
  let w' := step (StoreWrite (Registry.closeModal "search")) w in
  registry_value w = Some true
  ∧ registry_value w' = Some false
  ∧ modalIsOpen w' = true
  ∧ modalIsOpen (step Flush w') = false.
Proof. by vm_compute. Qed.

(** C6, as stated, fails: after open("search"), mount and a click on the
    close control, the entry exists with [isOpen] [false] while the local
    flag is still [true]. *)
Lemma flag_stale_before_flush :
  let w := step (Dom CardCloseButton Click) (opened card) in
  modals w !! modalName w = Some {| isOpen := false |}
  ∧ modalIsOpen w = true.
Proof. by vm_compute. Qed.

Lemma dismiss_targets_witness :
  (1 ≤ hits false SlotContent (Keydown Enter))%nat
  ∧ (Keydown Enter = Click ∨ Keydown Enter = Keydown Enter
     ∨ (false = true ∧ Keydown Enter = Keypress Esc)).
Proof.
  assert (H : (1 ≤ hits false SlotContent (Keydown Enter))%nat) by exact (le_n 1).
  split; [exact H|].
  exact (proj2 (proj2 (proj2 (proj2 (proj2 (proj2 (proj2 dismiss_targets))))))
           false SlotContent (Keydown Enter) H).
Defined.

Lemma registry_change_propagates_witness :
  let w := step Flush (opened card) in
  let w' := step Flush (run (StoreWrite <$> [Registry.closeModal "search"]) w) in
  (registry_value w' = Some false ∧ registry_value w' ≠ registry_value w)
  ∧ modalIsOpen w = true
  ∧ modalIsOpen w' = false.
Proof.
  intros w w'.
  assert (H1 : registry_value w' = Some false) by reflexivity.
  assert (H2 : registry_value w' ≠ registry_value w) by (vm_compute; discriminate).
  split; [by split|]. split; [reflexivity|].
  exact (proj1 registry_change_propagates (opened card)
           [Registry.closeModal "search"] false H1 H2).
Defined.

Lemma no_drift_witness :
  let post := [Dom CardCloseButton Click; Flush;
               StoreWrite (Registry.openModal "search"); RouteChanged; Flush] in
  let w0 := run [] (setup card (Registry.openModal "search" ∅)) in
  let w := run post (step Mounted w0) in
  (synced w0 ∧ Forall (λ e, later e = true) post ∧ synced w
   ∧ modals w !! modalName w = Some {| isOpen := false |})
  ∧ modalIsOpen w = isOpen {| isOpen := false |}.
Proof.
  intros post w0 w.
  assert (H0 : synced w0) by reflexivity.
  assert (Hp : Forall (λ e, later e = true) post) by (repeat constructor).
  assert (Hs : synced w) by reflexivity.
  assert (H : modals w !! modalName w = Some {| isOpen := false |}) by reflexivity.
  split; [done|].
  exact (no_drift card (Registry.openModal "search" ∅) [] post
           {| isOpen := false |} H0 Hp Hs H).
Defined.

Lemma mounted_leaves_store_witness :
  (∅ : Modals) !! prop_modalName card = None
  ∧ (let w := exec onMounted (setup card ∅) in
     modalIsOpen w = false ∧ modals w = ∅ ∧ modals w !! modalName w = None
     ∧ log w = []).
Proof.
  assert (H : (∅ : Modals) !! prop_modalName card = None) by reflexivity.
  split; [exact H|]. exact (proj2 mounted_leaves_store card ∅ H).
Defined.

Lemma absent_entry_keeps_flag_witness :
  delete "search" (modals (opened card)) !! modalName (opened card) = None
  ∧ modalIsOpen (opened card) = true
  ∧ modalIsOpen (step (StoreWrite (delete "search")) (opened card))
      = modalIsOpen (opened card)
  ∧ modalIsOpen (step Flush (step (StoreWrite (delete "search")) (opened card)))
      = modalIsOpen (opened card)
  ∧ watched (step Flush (step (StoreWrite (delete "search")) (opened card))) = None
  ∧ exec (callback None) (opened card) = opened card.
Proof.
  assert (H : delete "search" (modals (opened card)) !! modalName (opened card) = None)
    by reflexivity.
  split; [exact H|]. split; [reflexivity|].
  exact (absent_entry_keeps_flag (opened card) (delete "search") H).
Defined.

Lemma modalName_captured_once_witness :
  let w := run
             [Mounted; PropsChanged {| imageModal := false; prop_modalName := "other" |};
              RouteChanged]
             (setup card (Registry.openModal "search" ∅)) in
  Called CloseModal "search" ∈ log w
  ∧ prop_modalName (props w) = "other"
  ∧ modalName w = "search"
  ∧ (CloseModal = CloseModal ∧ "search" = prop_modalName card).
Proof.
  intros w.
  assert (H : Called CloseModal "search" ∈ log w)
    by apply list_elem_of_further, list_elem_of_here.
  split; [exact H|]. split; [reflexivity|]. split; [reflexivity|].
  exact (proj1 (proj2 modalName_captured_once) card
           (Registry.openModal "search" ∅) _ CloseModal "search" H).
Defined.

Lemma binding_never_opens_witness :
  let es := [Mounted; Dom Wrapper Click; Flush; RouteChanged; Flush] in
  let w := setup card (Registry.closeModal "search" (Registry.openModal "search" ∅)) in
  Forall (λ e, own e = true) es
  ∧ is_open (modals w) "search" = false
  ∧ (∀ k, is_open (modals (run es w)) k = true →
          is_open (modals w) k = true)
  ∧ (modalIsOpen (run es w) = true →
     modalIsOpen w = true ∨ is_open (modals w) (modalName w) = true).
Proof.
  intros es w.
  assert (H : Forall (λ e, own e = true) es) by (repeat constructor).
  split; [exact H|]. split; [reflexivity|].
  exact (proj2 (proj2 (binding_never_opens registry_close_opens_nothing es w H))).
Defined.

Lemma dom_event_at_most_once_witness :
  (in_variant (imageModal (props (opened card))) ImageCloseButton = false
   ∨ ImageCloseButton = Backdrop)
  ∧ step (Dom ImageCloseButton Click) (opened card) = opened card.
Proof.
  assert (H : in_variant (imageModal (props (opened card))) ImageCloseButton = false
              ∨ ImageCloseButton = Backdrop) by (left; reflexivity).
  split; [exact H|].
  exact (proj2 (dom_event_at_most_once (opened card) ImageCloseButton Click) H).
Defined.

Lemma foreign_events_leave_binding_witness :
  let w := setup card (Registry.openModal "search" ∅) in
  let es := [StoreWrite (Registry.openModal "other"); Flush;
             PropsChanged image;
             StoreWrite (Registry.closeModal "other"); Flush] in
  (synced w ∧ Forall (foreign (modalName w)) es)
  ∧ is_open (modals w) "search" = true
  ∧ modalIsOpen w = false
  ∧ modalIsOpen (run es w) = modalIsOpen w
  ∧ watched (run es w) = watched w
  ∧ log (run es w) = log w
  ∧ modals (run es w) !! modalName w = modals w !! modalName w.
Proof.
  intros w es.
  assert (Hs : synced w) by reflexivity.
  assert (H : Forall (foreign (modalName w)) es).
  { repeat constructor; intros ms'; simpl.
    - by apply lookup_insert_ne.
    - unfold Registry.closeModal. destruct (ms' !! "other"); [|done].
      by apply lookup_insert_ne. }
  split; [by split|]. split; [reflexivity|]. split; [reflexivity|].
  exact (foreign_events_leave_binding w es Hs H).
Defined.
